(** * Email extractor: [find_emails] and [hunt_emails] of [email_hunter.py]

    A shallow embedding of the extractor and the properties of its
    regular-expression scan and of its order-preserving de-duplication.

    Python strings are sequences of Unicode code points: a [str] is a
    [list Z].  The result of [hunt_emails] is a dictionary with three fixed
    keys, modelled as a record. *)

From Stdlib Require Import ZArith Ascii String.
From stdpp Require Import base list sorting gmap.

Local Open Scope Z_scope.

(** ** Strings *)

Abbreviation str := (list Z) (only parsing).

(** Code point of an ASCII character, and the Python literal of a string. *)
Definition chr (a : ascii) : Z := Z.of_N (N_of_ascii a).

Definition py (s : string) : str := chr <$> list_ascii_of_string s.

(** [sep.join(l)] *)
Fixpoint join (sep : str) (l : list str) : str :=
  match l with
  | [] => []
  | [e] => e
  | e :: es => e ++ sep ++ join sep es
  end.

(** ** The pattern language of [re] used by [email_pattern]

    [\b], a literal character, and a greedy repetition [[...]{min,}] of a
    character set ([+] is [{1,}]). *)

Inductive set_item : Type :=
  | Range (lo hi : Z)      (* lo-hi *)
  | One (c : Z).           (* a single character of the set *)

Definition in_item (c : Z) (it : set_item) : bool :=
  match it with
  | Range lo hi => (lo <=? c) && (c <=? hi)
  | One d => c =? d
  end.

Definition in_class (cs : list set_item) (c : Z) : bool := existsb (in_item c) cs.

Inductive node : Type :=
  | Boundary                                  (* \b *)
  | Lit (c : Z)                               (* a literal character *)
  | Repeat (min : nat) (cs : list set_item).  (* [cs]{min,}, greedy *)

(** [r'\b[A-Za-z0-9._%+-]+@[A-Za-z0-9.-]+\.[A-Z|a-z]{2,}\b'] *)
Definition local_class : list set_item :=
  [Range (chr "A") (chr "Z"); Range (chr "a") (chr "z"); Range (chr "0") (chr "9");
   One (chr "."); One (chr "_"); One (chr "%"); One (chr "+"); One (chr "-")].

Definition domain_class : list set_item :=
  [Range (chr "A") (chr "Z"); Range (chr "a") (chr "z"); Range (chr "0") (chr "9");
   One (chr "."); One (chr "-")].

Definition tld_class : list set_item :=
  [Range (chr "A") (chr "Z"); One (chr "|"); Range (chr "a") (chr "z")].

Definition email_pattern : list node :=
  [Boundary; Repeat 1 local_class; Lit (chr "@"); Repeat 1 domain_class;
   Lit (chr "."); Repeat 2 tld_class; Boundary].

(** The letters of the specification's grammar, [A-Za-z]. *)
Definition letter_class : list set_item :=
  [Range (chr "A") (chr "Z"); Range (chr "a") (chr "z")].

Definition is_ascii (c : Z) : bool := (0 <=? c) && (c <? 128).

Definition ascii_alnum (c : Z) : bool :=
  in_class [Range (chr "A") (chr "Z"); Range (chr "a") (chr "z"); Range (chr "0") (chr "9")] c.

Definition ascii_lower (c : Z) : Z :=
  if in_class [Range (chr "A") (chr "Z")] c then c + 32 else c.

(** ** Compiling the pattern

    [re.findall] compiles the pattern string before it scans, and raises
    [re.error] on a malformed pattern. The parser below reads the part of
    the syntax of [re] that [node] can express: [\b], a literal character
    (escaped by a backslash when it is punctuation), a set [[...]] of
    characters and ranges, and the greedy repetitions [+], [*] and [{m,}]. *)

Inductive exception : Type :=
  | re_error           (* re.error: the pattern is malformed *)
  | outside_fragment.  (* not decided here: a construct that the nodes do not cover *)

(** The item a repetition would apply to. *)
Inductive pending : Type :=
  | NoItem                          (* the start, or after \b: nothing to repeat *)
  | AfterRepeat                     (* a repetition was just read *)
  | PendLit (c : Z)
  | PendSet (cs : list set_item).

(** The state of the parser; the nodes read so far are in reverse order. *)
Inductive parser : Type :=
  | Top (nodes : list node) (item : pending)
  | Escape (nodes : list node)                               (* after a backslash *)
  | InSet (nodes : list node) (first : bool) (items : list set_item) (lo : option Z)
  | Dash (nodes : list node) (items : list set_item) (lo : Z)  (* after lo- in a set *)
  | Brace (nodes : list node) (cs : list set_item) (digits : option nat)  (* after { *)
  | BraceComma (nodes : list node) (cs : list set_item) (min : nat)       (* after {m, *)
  | Failed (e : exception).

(** The pending item becomes a node; a set without a repetition is no
    node. *)
Definition flush (nodes : list node) (item : pending) (k : list node -> parser) : parser :=
  match item with
  | NoItem | AfterRepeat => k nodes
  | PendLit c => k (Lit c :: nodes)
  | PendSet _ => Failed outside_fragment
  end.

(** A repetition [{min,}] of the pending item. *)
Definition repeat (nodes : list node) (item : pending) (min : nat) : parser :=
  match item with
  | NoItem => Failed re_error               (* nothing to repeat *)
  | AfterRepeat => Failed outside_fragment  (* lazy, possessive or multiple repeat *)
  | PendLit c => Top (Repeat min [One c] :: nodes) AfterRepeat
  | PendSet cs => Top (Repeat min cs :: nodes) AfterRepeat
  end.

Definition pending_item (lo : option Z) : list set_item :=
  match lo with
  | Some c => [One c]
  | None => []
  end.

Definition parse_char (st : parser) (c : Z) : parser :=
  match st with
  | Top nodes item =>
      if c =? chr "\" then flush nodes item Escape
      else if c =? chr "[" then flush nodes item (fun nodes => InSet nodes true [] None)
      else if c =? chr "+" then repeat nodes item 1
      else if c =? chr "*" then
        match item with AfterRepeat => Failed re_error | _ => repeat nodes item 0 end
      else if c =? chr "{" then
        match item with
        | PendLit x => Brace nodes [One x] None
        | PendSet cs => Brace nodes cs None
        | NoItem | AfterRepeat => Failed outside_fragment
        end
      else if c =? chr "?" then
        match item with NoItem => Failed re_error | _ => Failed outside_fragment end
      else if in_class [One (chr "."); One (chr "^"); One (chr "$"); One (chr "(");
                        One (chr ")"); One (chr "|")] c
      then Failed outside_fragment
      else flush nodes item (fun nodes => Top nodes (PendLit c))
  | Escape nodes =>
      if c =? chr "b" then Top (Boundary :: nodes) NoItem
      else if is_ascii c && ascii_alnum c then Failed outside_fragment
      else Top nodes (PendLit c)
  | InSet nodes true _ _ =>
      if (c =? chr "^") || (c =? chr "\") then Failed outside_fragment
      else InSet nodes false [] (Some c)
  | InSet nodes false items lo =>
      if c =? chr "]" then Top nodes (PendSet (items ++ pending_item lo))
      else if c =? chr "\" then Failed outside_fragment
      else if c =? chr "-" then
        match lo with
        | Some l => Dash nodes items l
        | None => InSet nodes false items (Some c)
        end
      else InSet nodes false (items ++ pending_item lo) (Some c)
  | Dash nodes items l =>
      if c =? chr "]" then Top nodes (PendSet (items ++ [One l; One (chr "-")]))
      else if c =? chr "\" then Failed outside_fragment
      else if c <? l then Failed re_error     (* bad character range *)
      else InSet nodes false (items ++ [Range l c]) None
  | Brace nodes cs digits =>
      if (chr "0" <=? c) && (c <=? chr "9") then
        Brace nodes cs (Some (10 * default O digits + Z.to_nat (c - chr "0"))%nat)
      else if c =? chr "," then
        match digits with
        | Some m => BraceComma nodes cs m
        | None => Failed outside_fragment
        end
      else Failed outside_fragment
  | BraceComma nodes cs m =>
      if c =? chr "}" then Top (Repeat m cs :: nodes) AfterRepeat
      else Failed outside_fragment
  | Failed e => Failed e
  end.

(** The end of the pattern. *)
Definition parse_end (st : parser) : exception + list node :=
  match st with
  | Top nodes (PendSet _) => inl outside_fragment
  | Top nodes (PendLit c) => inr (reverse (Lit c :: nodes))
  | Top nodes _ => inr (reverse nodes)
  | Escape _ => inl re_error              (* bad escape (end of pattern) *)
  | InSet _ _ _ _ | Dash _ _ _ => inl re_error    (* unterminated character set *)
  | Brace _ _ _ | BraceComma _ _ _ => inl outside_fragment
  | Failed e => inl e
  end.

(** [re.compile(pattern)] *)
Definition re_compile (pattern : string) : exception + list node :=
  parse_end (foldl parse_char (Top [] NoItem) (py pattern)).

(** [email_pattern = r'\b[A-Za-z0-9._%+-]+@[A-Za-z0-9.-]+\.[A-Z|a-z]{2,}\b'],
    the string of the source. *)
Definition email_pattern_source : string :=
  "\b[A-Za-z0-9._%+-]+@[A-Za-z0-9.-]+\.[A-Z|a-z]{2,}\b".

(** The result dictionary of [hunt_emails]. *)
Record result : Type := Result {
  emails : list str;
  count : nat;
  text_length : nat
}.

(** ** The shape of a token

    [local "@" domain "." tld], where the set of the characters of the top
    level domain is a parameter: [tld_class] is the set of the pattern,
    [letter_class] the one of the specification's grammar. *)

Definition assemble (l d t : str) : str := l ++ chr "@" :: d ++ chr "." :: t.

Definition email_parts (tld : list set_item) (l d t : str) : Prop :=
  Forall (fun c => in_class local_class c = true) l /\ (1 <= length l)%nat /\
  Forall (fun c => in_class domain_class c = true) d /\ (1 <= length d)%nat /\
  Forall (fun c => in_class tld c = true) t /\ (2 <= length t)%nat.

Definition token_form (tld : list set_item) (e : str) : Prop :=
  exists l d t : str, e = assemble l d t /\ email_parts tld l d t.

(** A stand-in for the Unicode tables, for the instances below on ASCII
    texts, where the tables are never consulted: no word character outside
    ASCII, and [str.lower] leaving a non-ASCII string as it is. *)
Definition ascii_isalnum_table : Z -> bool := fun _ => false.
Definition ascii_lower_table : str -> str := fun s => s.
Definition ascii_isspace_table : Z -> bool := fun _ => false.

(** Membership in a character set as linear arithmetic. *)
Ltac class_solve :=
  unfold in_class, local_class, domain_class, tld_class, letter_class, in_item;
  change (chr "A") with 65; change (chr "Z") with 90;
  change (chr "a") with 97; change (chr "z") with 122;
  change (chr "0") with 48; change (chr "9") with 57;
  change (chr ".") with 46; change (chr "_") with 95;
  change (chr "%") with 37; change (chr "+") with 43;
  change (chr "-") with 45; change (chr "|") with 124;
  change (chr "@") with 64;
  simpl existsb;
  rewrite ?orb_true_iff, ?andb_true_iff, ?orb_false_iff, ?andb_false_iff,
    ?Z.leb_le, ?Z.eqb_eq, ?Z.leb_gt, ?Z.eqb_neq;
  lia.

(** ** The service of [main.py]: the key store and the request checks *)

Section ServiceDefinitions.

(** [str.isspace] on the code points outside ASCII is a table of the
    runtime, as [str.isalnum] and [str.lower] below. *)
Variable unicode_isspace : Z -> bool.

(** The characters that [str.strip] removes: in ASCII the tab to carriage
    return, the four separators 28 to 31, and the space. *)
Definition is_space (c : Z) : bool :=
  if is_ascii c then in_class [Range 9 13; Range 28 32] c else unicode_isspace c.

Fixpoint lstrip (s : str) : str :=
  match s with
  | [] => []
  | c :: s' => if is_space c then lstrip s' else s
  end.

(** [s.strip()] *)
Definition strip (s : str) : str := reverse (lstrip (reverse (lstrip s))).

(** [s.split(sep)] for a separator [sep] of one character. *)
Fixpoint split (sep : Z) (s : str) : list str :=
  match s with
  | [] => [[]]
  | c :: s' =>
      if c =? sep then [] :: split sep s'
      else match split sep s' with
           | piece :: pieces => (c :: piece) :: pieces
           | [] => [[c]]
           end
  end.

(** The truth value of a string: it is not empty. *)
Definition truthy (s : str) : bool :=
  match s with
  | [] => false
  | _ :: _ => true
  end.

(** An entry of [API_KEYS]. *)
Record key_info : Type := KeyInfo {
  name : str;
  created_at : str;
  tier : str
}.

(** The entry of a key of the environment. *)
Definition environment_entry (info : key_info) : Prop :=
  name info = py "Environment Key" /\ tier info = py "premium".

(** The store at import time, before the environment is read. *)
Definition API_KEYS : gmap str key_info :=
  {[ py "demo_key_12345" :=
       {| name := py "Demo Key"; created_at := py "2026-02-16T00:00:00Z";
          tier := py "free" |} ]}.

(** [os.getenv("API_KEYS", "").split(",")]; [env] is the value of the
    variable, if it is set. *)
Definition MASTER_API_KEYS (env : option str) : list str :=
  split (chr ",") (default [] env).

(** The loop over [MASTER_API_KEYS]; [utcnow i] is the ISO form of the
    clock read for the component of index [i]. *)
Fixpoint load_keys (utcnow : nat -> str) (i : nat) (keys : list str)
    (store : gmap str key_info) : gmap str key_info :=
  match keys with
  | [] => store
  | key :: rest =>
      let key := strip key in
      load_keys utcnow (S i) rest
        (if truthy key then
           <[key := {| name := py "Environment Key"; created_at := utcnow i ++ py "Z";
                       tier := py "premium" |}]> store
         else store)
  end.

(** [if MASTER_API_KEYS and MASTER_API_KEYS[0]: for key in MASTER_API_KEYS: ...] *)
Definition load_env_keys (utcnow : nat -> str) (env : option str)
    (store : gmap str key_info) : gmap str key_info :=
  match MASTER_API_KEYS env with
  | [] => store
  | first :: _ => if truthy first then load_keys utcnow O (MASTER_API_KEYS env) store else store
  end.

(** An [HTTPException] with the [detail] dictionary of [verify_api_key]. *)
Record http_exception : Type := HTTPException {
  status_code : Z;
  success : bool;
  error : str;
  detail : str;
  help : str
}.

(** [verify_api_key]; the header [X-API-Key] may be absent. *)
Definition verify_api_key (store : gmap str key_info) (x_api_key : option str)
    : http_exception + key_info :=
  match x_api_key with
  | Some (c :: key) =>
      match store !! (c :: key) with
      | None =>
          inl {| status_code := 401; success := false;
                 error := py "Invalid API key";
                 detail := py "The provided API key is not valid or has been revoked.";
                 help := py "Generate a new API key from POST /api/generate-key" |}
      | Some info => inr info
      end
  | _ =>
      inl {| status_code := 401; success := false;
             error := py "Missing API key";
             detail := py "API key is required. Include 'X-API-Key' header in your request.";
             help := py "Get a test API key from POST /api/generate-key" |}
  end.

(** The response of [generate_api_key]. *)
Record generate_response : Type := GenerateResponse {
  response_success : bool;
  response_api_key : str;
  response_name : str;
  response_tier : str;
  response_rate_limit : str;
  response_created_at : str
}.

(** [request.name or "Test Key"] *)
Definition name_or_default (request_name : option str) : str :=
  match request_name with
  | Some n => if truthy n then n else py "Test Key"
  | None => py "Test Key"
  end.

(** [generate_api_key]: [random_part] is the value of
    [secrets.token_urlsafe(16)] and [now] the ISO form of the clock; the
    result is the new store and the response. *)
Definition generate_api_key (store : gmap str key_info) (request_name : option str)
    (random_part now : str) : gmap str key_info * generate_response :=
  let api_key := py "test_key_" ++ random_part in
  let created_at := now ++ py "Z" in
  (<[api_key := {| name := name_or_default request_name; created_at := created_at;
                   tier := py "free" |}]> store,
   {| response_success := true; response_api_key := api_key;
      response_name := name_or_default request_name; response_tier := py "free";
      response_rate_limit := py "10 requests per minute";
      response_created_at := created_at |}).

(** A call of [generate_api_key]: the name of the request, and what the
    random source and the clock gave. *)
Record key_request : Type := KeyRequest {
  request_name : option str;
  random_part : str;
  now : str
}.

(** The store after a sequence of calls of [generate_api_key]. *)
Definition generated (store : gmap str key_info) (reqs : list key_request)
    : gmap str key_info :=
  foldl (fun st r => (generate_api_key st (request_name r) (random_part r) (now r)).1)
    store reqs.

(** The validator [text_not_empty] of [EmailExtractionRequest]: the
    [ValueError] message, or the text. *)
Definition text_not_empty (v : str) : str + str :=
  if negb (truthy v) || negb (truthy (strip v))
  then inl (py "Text cannot be empty or whitespace only")
  else inr v.

End ServiceDefinitions.

Section Extractor.

(** The Unicode tables of the Python runtime are not part of the
    repository: [str.isalnum] on the code points outside ASCII, and
    [str.lower] on the strings that are not pure ASCII. *)
Variable unicode_isalnum : Z -> bool.
Variable unicode_lower : str -> str.

(** [\w] of a [str] pattern: alphanumeric or underscore. *)
Definition is_word (c : Z) : bool :=
  if is_ascii c then ascii_alnum c || (c =? chr "_") else unicode_isalnum c.

(** Outside the string there is no word character. *)
Definition is_word_at (o : option Z) : bool :=
  match o with
  | Some c => is_word c
  | None => false
  end.

(** [\b] between the previous character [prev] and the rest [s]. *)
Definition at_boundary (prev : option Z) (s : str) : bool :=
  xorb (is_word_at prev) (is_word_at (head s)).

(** Greedy repetition: take one more character of the set when there is
    one, and only when the rest of the pattern fails after that, stop here
    (provided [min] characters were taken). [kont] is the rest of the
    pattern. *)
Fixpoint greedy (cs : list set_item) (kont : option Z -> str -> option nat)
    (min : nat) (prev : option Z) (s : str) {struct s} : option nat :=
  match s with
  | x :: s' =>
      if in_class cs x then
        match greedy cs kont (pred min) (Some x) s' with
        | Some n => Some (S n)
        | None => match min with O => kont prev s | S _ => None end
        end
      else match min with O => kont prev s | S _ => None end
  | [] => match min with O => kont prev s | S _ => None end
  end.

(** The backtracking matcher anchored at the start of [s]; the result is
    the number of characters of the match. *)
Fixpoint match_here (p : list node) (prev : option Z) (s : str) {struct p} : option nat :=
  match p with
  | [] => Some O
  | Boundary :: k => if at_boundary prev s then match_here k prev s else None
  | Lit c :: k =>
      match s with
      | x :: s' => if x =? c then S <$> match_here k (Some x) s' else None
      | [] => None
      end
  | Repeat min cs :: k => greedy cs (match_here k) min prev s
  end.

(** The left-to-right scan of [re.findall]: at each position outside a
    previous match the pattern is tried; a match of [n] characters is
    reported and the scan resumes after it ([skip] counts the characters
    of the current match still to pass). The email pattern matches no
    empty string, see [match_email_shape]. *)
Fixpoint scan (p : list node) (skip : nat) (prev : option Z) (s : str) : list str :=
  match s with
  | [] => []
  | x :: s' =>
      match skip with
      | S j => scan p j (Some x) s'
      | O =>
          match match_here p prev s with
          | Some n => take n s :: scan p (pred n) (Some x) s'
          | None => scan p O (Some x) s'
          end
      end
  end.

Definition findall (p : list node) (text : str) : list str := scan p O None text.

(** [str.lower] *)
Definition lower (s : str) : str :=
  if forallb is_ascii s then ascii_lower <$> s else unicode_lower s.

(** One iteration of the loop of [find_emails] on the state
    [(seen, unique_emails)]. *)
Definition dedup_step (st : gset str * list str) (email : str) : gset str * list str :=
  let email_lower := lower email in
  if decide (email_lower ∈ st.1) then st
  else ({[email_lower]} ∪ st.1, st.2 ++ [email]).

Definition find_emails (text : str) : list str :=
  let emails := findall email_pattern text in
  (foldl dedup_step (∅, []) emails).2.

Definition hunt_emails (text : str) : result :=
  let emails := find_emails text in
  {| emails := emails; count := length emails; text_length := length text |}.

(** The extractor with the exceptions of its calls: [re.findall] raises
    what compiling the pattern raises; [str.lower], the set and the list
    operations and [len] raise nothing on strings. *)
Definition run_findall (pattern : string) (text : str) : exception + list str :=
  match re_compile pattern with
  | inl e => inl e
  | inr p => inr (findall p text)
  end.

Definition run_find_emails (text : str) : exception + list str :=
  match run_findall email_pattern_source text with
  | inl e => inl e
  | inr emails => inr (foldl dedup_step (∅, []) emails).2
  end.

Definition run_hunt_emails (text : str) : exception + result :=
  match run_find_emails text with
  | inl e => inl e
  | inr emails =>
      inr {| emails := emails; count := length emails; text_length := length text |}
  end.

(** The text has a match: somewhere in it stands a token of the pattern,
    with a word boundary before it and one after it. *)
Definition occurrence (text : str) : Prop :=
  exists pre l d t post : str,
    text = pre ++ assemble l d t ++ post /\
    email_parts tld_class l d t /\
    at_boundary (last pre) (assemble l d t ++ post) = true /\
    at_boundary (last (assemble l d t)) post = true.

(** The character before the position reached after [run]. *)
Definition last_char (prev : option Z) (run : str) : option Z :=
  match last run with
  | Some c => Some c
  | None => prev
  end.

(** A delimiter character for [join] that cannot take part in a match nor
    make a word boundary disappear: not a word character, not in the set
    of the local part, and not ["|"]. *)
Definition delimiter_ok (c : Z) : bool :=
  negb (is_word c) && negb (in_class local_class c) && negb (c =? chr "|").

(** The string is empty or starts with a delimiter. *)
Definition delimited (s : str) : Prop :=
  match s with
  | [] => True
  | y :: _ => delimiter_ok y = true
  end.

(** The email starts and ends with a word character. *)
Definition word_ended (e : str) : Prop :=
  is_word_at (head e) = true /\ is_word_at (last e) = true.

(** The matches that are the first of their lowercase form: the match at
    index [j] of [ms] is [e], and no earlier match has the same lowercase
    form. *)
Definition first_occurrence (ms : list str) (j : nat) (e : str) : Prop :=
  ms !! j = Some e /\
  forall (j' : nat) (e' : str), (j' < j)%nat -> ms !! j' = Some e' -> lower e' <> lower e.

(** [s.count(c)] for a character [c]. *)
Definition count_char (c : Z) (s : str) : nat := length (filter (fun x => x = c) s).

(** The set of the lowercase forms of a sequence of emails. *)
Definition lowered_set (l : list str) : gset str := list_to_set (lower <$> l).

(** ** Facts about the character sets *)

Lemma local_not_at (c : Z) : in_class local_class c = true -> c <> chr "@".
Proof. intros H ->. vm_compute in H. discriminate. Qed.

Lemma domain_local (c : Z) :
  in_class domain_class c = true -> in_class local_class c = true.
Proof. class_solve. Qed.

Lemma tld_not_dot (c : Z) : in_class tld_class c = true -> c <> chr ".".
Proof. intros H ->. vm_compute in H. discriminate. Qed.

Lemma tld_local_or_bar (c : Z) :
  in_class tld_class c = true -> in_class local_class c = true \/ c = chr "|".
Proof. class_solve. Qed.

(** ** The greedy repetition *)

Lemma last_char_cons (prev : option Z) (x : Z) (run : str) :
  last_char prev (x :: run) = last_char (Some x) run.
Proof.
  unfold last_char. rewrite last_cons. by destruct (last run).
Qed.

Section Greedy.
Variable cs : list set_item.
Variable kont : option Z -> str -> option nat.

(** What a successful repetition consumed: a run of characters of the
    set, at least [min] of them, after which the rest of the pattern
    matched. *)
Lemma greedy_sound (s : str) : forall (min : nat) (prev : option Z) (n : nat),
  greedy cs kont min prev s = Some n ->
  exists (run rest : str) (m : nat),
    s = run ++ rest /\ Forall (fun c => in_class cs c = true) run /\
    (min <= length run)%nat /\ kont (last_char prev run) rest = Some m /\
    n = (length run + m)%nat.
Proof.
  induction s as [|x s IH]; intros min prev n H; simpl in H.
  - destruct min; [|discriminate].
    exists [], [], n. repeat split; auto.
  - assert (Hstop : match min with O => kont prev (x :: s) | S _ => None end = Some n ->
              exists (run rest : str) (m : nat),
                x :: s = run ++ rest /\ Forall (fun c => in_class cs c = true) run /\
                (min <= length run)%nat /\ kont (last_char prev run) rest = Some m /\
                n = (length run + m)%nat).
    { destruct min; [|discriminate]. intros Hk.
      exists [], (x :: s), n. repeat split; auto. }
    destruct (in_class cs x) eqn:Hx; [|auto].
    destruct (greedy cs kont (pred min) (Some x) s) as [n'|] eqn:Hrec; [|auto].
    injection H as <-.
    destruct (IH _ _ _ Hrec) as (run & rest & m & -> & Hrun & Hmin & Hk & ->).
    exists (x :: run), rest, m. rewrite last_char_cons.
    repeat split; auto. simpl. lia.
Qed.

(** Backtracking order: the longest run after which the rest of the
    pattern matches is the one returned. *)
Lemma greedy_first_success (run : str) : forall (rest : str) (min : nat) (prev : option Z) (m : nat),
  Forall (fun c => in_class cs c = true) run ->
  (min <= length run)%nat ->
  kont (last_char prev run) rest = Some m ->
  (forall a b : str, a <> [] -> Forall (fun c => in_class cs c = true) a ->
     rest = a ++ b -> kont (last_char prev (run ++ a)) b = None) ->
  greedy cs kont min prev (run ++ rest) = Some (length run + m)%nat.
Proof.
  induction run as [|x run IH]; intros rest min prev m Hrun Hmin Hk Hlong.
  - simpl in *. assert (min = O) as -> by lia.
    destruct rest as [|y rest]; simpl; [done|].
    destruct (in_class cs y) eqn:Hy; [|done].
    destruct (greedy cs kont O (Some y) rest) as [n'|] eqn:Hrec; [|done].
    destruct (greedy_sound _ _ _ _ Hrec) as (a & b & m' & -> & Ha & _ & Hk' & _).
    specialize (Hlong (y :: a) b). simpl in Hlong.
    rewrite last_char_cons, Hk' in Hlong.
    discriminate Hlong; [done| |done]. by constructor.
  - inversion Hrun as [|? ? Hx Hrun']; subst. simpl.
    rewrite Hx, (IH rest (pred min) (Some x) m); auto.
    + simpl in Hmin. lia.
    + by rewrite <- (last_char_cons prev).
    + intros a b Ha Hcs ->. rewrite <- (last_char_cons prev). by apply Hlong.
Qed.

(** The run cannot be extended: no backtracking is needed. *)
Lemma greedy_maximal (run rest : str) (min : nat) (prev : option Z) (m : nat) :
  Forall (fun c => in_class cs c = true) run ->
  (min <= length run)%nat ->
  match rest with [] => True | y :: _ => in_class cs y = false end ->
  kont (last_char prev run) rest = Some m ->
  greedy cs kont min prev (run ++ rest) = Some (length run + m)%nat.
Proof.
  intros Hrun Hmin Hrest Hk. apply greedy_first_success; auto.
  intros a b Ha Hcs ->. destruct a as [|y a]; [done|].
  inversion Hcs; subst. simpl in Hrest. congruence.
Qed.

(** No character of the set where one is required. *)
Lemma greedy_none (min : nat) (prev : option Z) (s : str) :
  match s with [] => True | y :: _ => in_class cs y = false end ->
  greedy cs kont (S min) prev s = None.
Proof. destruct s as [|y s]; simpl; [done|]. by intros ->. Qed.

End Greedy.

(** ** The email pattern *)

Lemma length_assemble (l d t : str) :
  length (assemble l d t) = (length l + S (length d + S (length t + 0)))%nat.
Proof. unfold assemble. rewrite length_app. simpl. rewrite length_app. simpl. lia. Qed.

(** A match of the email pattern is a token of the pattern's grammar
    between two word boundaries. *)
Lemma match_email_shape (prev : option Z) (s : str) (n : nat) :
  match_here email_pattern prev s = Some n ->
  exists l d t rest : str,
    s = assemble l d t ++ rest /\ n = length (assemble l d t) /\
    email_parts tld_class l d t /\
    at_boundary prev s = true /\ at_boundary (last_char (Some (chr ".")) t) rest = true.
Proof.
  unfold email_pattern. cbn [match_here]. intros H.
  destruct (at_boundary prev s) eqn:Hb; [|discriminate].
  apply greedy_sound in H as (l & r0 & m0 & -> & Hl & Hlen & Hk & ->).
  cbn [match_here] in Hk.
  destruct r0 as [|x r1]; [discriminate|].
  destruct (x =? chr "@") eqn:Hx; [|discriminate].
  apply Z.eqb_eq in Hx as ->.
  destruct (greedy domain_class _ 1 _ r1) as [m1|] eqn:Hd; [|discriminate].
  injection Hk as <-.
  apply greedy_sound in Hd as (d & r2 & m2 & -> & Hd & Hdlen & Hk & ->).
  cbn [match_here] in Hk.
  destruct r2 as [|y r3]; [discriminate|].
  destruct (y =? chr ".") eqn:Hy; [|discriminate].
  apply Z.eqb_eq in Hy as ->.
  destruct (greedy tld_class _ 2 _ r3) as [m3|] eqn:Ht; [|discriminate].
  injection Hk as <-.
  apply greedy_sound in Ht as (t & r4 & m4 & -> & Ht & Htlen & Hk & ->).
  cbn [match_here] in Hk.
  destruct (at_boundary _ r4) eqn:Hb'; [|discriminate].
  injection Hk as <-.
  exists l, d, t, r4. rewrite length_assemble. unfold assemble.
  assert (Hs : l ++ chr "@" :: d ++ chr "." :: t ++ r4 =
               (l ++ chr "@" :: d ++ chr "." :: t) ++ r4).
  { by rewrite <- !app_assoc, <- !app_comm_cons, <- !app_assoc. }
  rewrite <- Hs. repeat split; auto.
Qed.

(** The matches reported by the scan are tokens. *)
Lemma scan_token (s : str) : forall (skip : nat) (prev : option Z) (e : str),
  e ∈ scan email_pattern skip prev s -> token_form tld_class e.
Proof.
  induction s as [|x s IH]; intros skip prev e; cbn [scan].
  - by intros ?%elem_of_nil.
  - destruct skip as [|j]; [|by apply IH].
    destruct (match_here email_pattern prev (x :: s)) as [n|] eqn:Hm; [|by apply IH].
    intros [->|He]%elem_of_cons; [|by eapply IH].
    apply match_email_shape in Hm as (l & d & t & rest & Hs & -> & Hparts & _).
    exists l, d, t. split; [|done].
    change (take (length (assemble l d t)) (x :: s) = assemble l d t).
    by rewrite Hs, take_app_length.
Qed.

(** ** Matching an email again, between delimiters *)

Lemma delimiter_not_local (y : Z) :
  delimiter_ok y = true -> in_class local_class y = false.
Proof.
  unfold delimiter_ok. rewrite !andb_true_iff, !negb_true_iff. tauto.
Qed.

Lemma delimiter_not_word (y : Z) : delimiter_ok y = true -> is_word y = false.
Proof.
  unfold delimiter_ok. rewrite !andb_true_iff, !negb_true_iff. tauto.
Qed.

Lemma delimiter_not_tld (y : Z) :
  delimiter_ok y = true -> in_class tld_class y = false.
Proof.
  unfold delimiter_ok. rewrite !andb_true_iff, !negb_true_iff.
  intros [[_ Hl] Hbar]. apply Z.eqb_neq in Hbar.
  destruct (in_class tld_class y) eqn:Ht; [|done].
  apply tld_local_or_bar in Ht as [Ht| ->]; congruence.
Qed.

Lemma delimited_word (rest : str) : delimited rest -> is_word_at (head rest) = false.
Proof. destruct rest as [|y rest]; [done|]. apply delimiter_not_word. Qed.

(** After the last dot of the email there is no other dot to backtrack
    to. *)
Lemma no_dot_after (t : str) : forall (a b rest : str),
  Forall (fun c => in_class tld_class c = true) t ->
  Forall (fun c => in_class domain_class c = true) a ->
  delimited rest ->
  t ++ rest = a ++ b ->
  match b with [] => True | x :: _ => x <> chr "." end.
Proof.
  induction t as [|c t IH]; intros a b rest Ht Ha Hrest Heq; simpl in Heq.
  - destruct a as [|y a]; simpl in Heq.
    + subst b. destruct rest as [|y rest]; [done|]. simpl in Hrest.
      apply delimiter_not_local in Hrest. intros ->. vm_compute in Hrest. discriminate.
    + destruct rest as [|z rest]; [discriminate|]. injection Heq as -> ->.
      inversion Ha as [|? ? Hy _]; subst.
      apply domain_local in Hy. apply delimiter_not_local in Hrest. congruence.
  - inversion Ht as [|? ? Hc Ht']; subst.
    destruct a as [|y a]; simpl in Heq; subst.
    + by apply tld_not_dot.
    + injection Heq as -> Heq. inversion Ha; subst. by eapply IH.
Qed.

Lemma rematch (l d t : str) (prev : option Z) (rest : str) :
  email_parts tld_class l d t ->
  word_ended (assemble l d t) ->
  is_word_at prev = false ->
  delimited rest ->
  match_here email_pattern prev (assemble l d t ++ rest) = Some (length (assemble l d t)).
Proof.
  intros (Hl & Hllen & Hd & Hdlen & Ht & Htlen) [Hhead Hlast] Hprev Hrest.
  assert (H3 : match_here [Boundary] (last_char (Some (chr ".")) t) rest = Some 0%nat).
  { cbn [match_here]. unfold at_boundary.
    assert (last_char (Some (chr ".")) t = last (assemble l d t)) as ->.
    { unfold assemble, last_char.
      rewrite last_app, last_cons, last_app, last_cons.
      destruct (last t) eqn:E; [done|]. apply last_None in E. subst. simpl in Htlen. lia. }
    by rewrite Hlast, delimited_word. }
  assert (H2 : forall p, match_here [Lit (chr "."); Repeat 2 tld_class; Boundary] p
                 (chr "." :: t ++ rest) = Some (S (length t + 0))).
  { intros p. cbn [match_here]. rewrite Z.eqb_refl.
    rewrite (greedy_maximal _ _ t rest 2 _ 0); auto.
    destruct rest as [|y rest]; [done|]. by apply delimiter_not_tld. }
  assert (H1 : forall p, match_here [Lit (chr "@"); Repeat 1 domain_class; Lit (chr ".");
                                     Repeat 2 tld_class; Boundary] p
                 (chr "@" :: d ++ chr "." :: t ++ rest)
               = Some (S (length d + S (length t + 0)))).
  { intros p. cbn [match_here]. rewrite Z.eqb_refl.
    rewrite (greedy_first_success _ _ d (chr "." :: t ++ rest) 1 _ (S (length t + 0))); auto.
    - apply (H2 None).
    - intros a b Ha Hcs Heq. destruct a as [|y a]; [done|].
      injection Heq as <- Heq. inversion Hcs; subst.
      pose proof (no_dot_after t a b rest Ht ltac:(done) Hrest Heq) as Hb.
      destruct b as [|x b]; [done|]. apply Z.eqb_neq in Hb. by rewrite Hb. }
  rewrite length_assemble. unfold email_pattern. cbn [match_here].
  assert (at_boundary prev (assemble l d t ++ rest) = true) as ->.
  { unfold at_boundary. rewrite Hprev.
    destruct l as [|x l]; [simpl in Hllen; lia|]. simpl in Hhead |- *. by rewrite Hhead. }
  unfold assemble. rewrite <- app_assoc, <- !app_comm_cons, <- app_assoc, <- !app_comm_cons.
  apply greedy_maximal; [done | done | reflexivity | apply (H1 None)].
Qed.

(** ** Scanning the joined output *)

Lemma join_cons (sep e : str) (es : list str) :
  join sep (e :: es) = e ++ match es with [] => [] | _ :: _ => sep ++ join sep es end.
Proof. destruct es; simpl; by rewrite ?app_nil_r. Qed.

Lemma scan_skip (p : list node) (a : str) : forall (prev : option Z) (b : str),
  scan p (length a) prev (a ++ b) = scan p O (last_char prev a) b.
Proof.
  induction a as [|x a IH]; intros prev b; [done|].
  cbn [scan length app]. by rewrite IH, last_char_cons.
Qed.

Lemma scan_match (p : list node) (prev : option Z) (e rest : str) :
  e <> [] ->
  match_here p prev (e ++ rest) = Some (length e) ->
  scan p O prev (e ++ rest) = e :: scan p O (last_char prev e) rest.
Proof.
  intros He Hm. destruct e as [|x e]; [done|].
  change ((x :: e) ++ rest) with (x :: (e ++ rest)) in *.
  cbn [scan]. rewrite Hm. cbn [length pred].
  rewrite scan_skip, last_char_cons. f_equal.
  change (x :: e ++ rest) with ((x :: e) ++ rest).
  change (S (length e)) with (length (x :: e)). apply take_app_length.
Qed.

Lemma token_nonempty (tld : list set_item) (e : str) : token_form tld e -> e <> [].
Proof.
  intros (l & d & t & -> & _) H. apply (f_equal length) in H.
  rewrite length_assemble in H. simpl in H. lia.
Qed.

(** The scan of emails joined by a delimiter finds the emails again. *)
Lemma scan_join (dl : Z) (es : list str) : forall prev : option Z,
  delimiter_ok dl = true ->
  Forall (fun e => token_form tld_class e /\ word_ended e) es ->
  is_word_at prev = false ->
  scan email_pattern O prev (join [dl] es) = es.
Proof.
  induction es as [|e es IH]; intros prev Hdl Hes Hprev; [done|].
  inversion Hes as [|? ? [Htok Hword] Hes']; subst.
  rewrite join_cons.
  pose proof (token_nonempty _ _ Htok) as Hne.
  destruct Htok as (l & d & t & -> & Hparts).
  rewrite scan_match; [f_equal | done |].
  - destruct es as [|e' es]; [done|].
    change ([dl] ++ join [dl] (e' :: es)) with (dl :: join [dl] (e' :: es)).
    cbn [scan].
    assert (match_here email_pattern (last_char prev (assemble l d t))
              (dl :: join [dl] (e' :: es)) = None) as ->.
    { unfold email_pattern. cbn [match_here].
      rewrite greedy_none; [by destruct (at_boundary _ _)|].
      by apply delimiter_not_local. }
    apply IH; auto. by apply delimiter_not_word.
  - apply rematch; auto. by destruct es.
Qed.

(** ** The de-duplication loop *)

(** After the loop over the matches [ms]: [seen] holds the lowercase forms
    of the matches, which are those of [unique_emails]; these are
    pairwise different, and [unique_emails] holds matches only. *)
Lemma dedup_invariant (ms : list str) :
  let st := foldl dedup_step (∅, []) ms in
  (forall k, k ∈ st.1 <-> k ∈ lower <$> ms) /\
  (forall k, k ∈ st.1 <-> k ∈ lower <$> st.2) /\
  NoDup (lower <$> st.2) /\
  (forall e, e ∈ st.2 -> e ∈ ms).
Proof.
  induction ms as [|m ms IH] using rev_ind; simpl.
  - split_and!; [intros k; split; intros H..| constructor | by intros e H%elem_of_nil].
    + by apply not_elem_of_empty in H.
    + by apply elem_of_nil in H.
    + by apply not_elem_of_empty in H.
    + by apply elem_of_nil in H.
  - rewrite foldl_snoc. destruct (foldl dedup_step (∅, []) ms) as [seen out].
    simpl in IH. destruct IH as (Hms & Hout & Hnd & Hsub).
    unfold dedup_step. cbn [fst snd]. case_decide as Hin; cbn [fst snd].
    + split_and!; [| done | done |].
      * intros k. rewrite fmap_app, elem_of_app, <- Hms.
        cbn. rewrite list_elem_of_singleton. intuition (subst; auto).
      * intros e He. apply elem_of_app. auto.
    + split_and!.
      * intros k. rewrite fmap_app, elem_of_app, <- Hms, elem_of_union, elem_of_singleton.
        cbn. rewrite list_elem_of_singleton. tauto.
      * intros k. rewrite fmap_app, elem_of_app, <- Hout, elem_of_union, elem_of_singleton.
        cbn. rewrite list_elem_of_singleton. tauto.
      * rewrite fmap_app. apply NoDup_app. split_and!; [done | | apply NoDup_singleton].
        intros k Hk ->%list_elem_of_singleton. apply Hin, Hout, Hk.
      * intros e [He| ->%list_elem_of_singleton]%elem_of_app; apply elem_of_app; auto.
        right. by apply list_elem_of_singleton.
Qed.

(** On matches with pairwise different lowercase forms the loop keeps
    every match. *)
Lemma dedup_distinct (l : list str) : forall (seen : gset str) (acc : list str),
  NoDup (lower <$> l) ->
  (forall e, e ∈ l -> lower e ∉ seen) ->
  (foldl dedup_step (seen, acc) l).2 = acc ++ l.
Proof.
  induction l as [|m l IH]; intros seen acc Hnd Hseen; simpl.
  - by rewrite app_nil_r.
  - rewrite fmap_cons in Hnd. apply NoDup_cons in Hnd as [Hm Hnd].
    unfold dedup_step at 2. cbn [fst snd].
    case_decide as Hin.
    + exfalso. apply (Hseen m); [by left | done].
    + rewrite IH; [by rewrite <- app_assoc | done |].
      intros e He [Hk%elem_of_singleton|Hk]%elem_of_union.
      * apply Hm. rewrite <- Hk. by apply list_elem_of_fmap_2.
      * apply (Hseen e); [by right | done].
Qed.

Lemma first_occurrence_snoc (ms : list str) (m : str) (j : nat) (e : str) :
  (j < length ms)%nat ->
  first_occurrence (ms ++ [m]) j e <-> first_occurrence ms j e.
Proof.
  intros Hj. unfold first_occurrence. rewrite lookup_app_l by done.
  split; intros [Hl Hfirst]; (split; [done|]); intros j' e' Hj' He'.
  - apply (Hfirst j'); [done|]. rewrite lookup_app_l; [done | lia].
  - apply (Hfirst j'); [done|]. rewrite lookup_app_l in He'; [done | lia].
Qed.

Lemma first_occurrence_last (ms : list str) (m : str) (j : nat) (e : str) :
  first_occurrence (ms ++ [m]) j e -> (length ms <= j)%nat ->
  j = length ms /\ e = m /\ lower m ∉ lower <$> ms.
Proof.
  intros [Hl Hfirst] Hj.
  pose proof (lookup_lt_Some _ _ _ Hl) as Hlt. rewrite length_app in Hlt. simpl in Hlt.
  assert (j = length ms) as -> by lia.
  rewrite list_lookup_middle in Hl by done. injection Hl as <-.
  split_and!; [done..|].
  intros (e' & Heq & [j' Hj']%list_elem_of_lookup_1)%list_elem_of_fmap_1.
  apply (Hfirst j' e'); [by eapply lookup_lt_Some | | done].
  rewrite lookup_app_l; [done | by eapply lookup_lt_Some].
Qed.

(** The positions of the matches that the loop keeps: the increasing list
    of the indices of the first occurrences. *)
Lemma dedup_positions (ms : list str) :
  exists js : list nat,
    Forall2 (first_occurrence ms) js (foldl dedup_step (∅, []) ms).2 /\
    StronglySorted lt js /\
    (forall j e, first_occurrence ms j e -> j ∈ js) /\
    (forall j, j ∈ js -> (j < length ms)%nat).
Proof.
  induction ms as [|m ms IH] using rev_ind.
  - exists []. split_and!; [by constructor | by constructor | | by intros j H%elem_of_nil].
    intros j e [H _]. by rewrite lookup_nil in H.
  - destruct IH as (js & Hjs & Hsorted & Hall & Hlt).
    pose proof (dedup_invariant ms) as (Hms & _). revert Hms Hjs.
    rewrite foldl_snoc. destruct (foldl dedup_step (∅, []) ms) as [seen out].
    cbn [fst snd]. intros Hms Hjs.
    assert (Hold : Forall2 (first_occurrence (ms ++ [m])) js out).
    { eapply Forall2_impl; [exact Hjs|]. intros j e Hje.
      apply first_occurrence_snoc; [|done]. destruct Hje as [Hl _].
      by eapply lookup_lt_Some. }
    unfold dedup_step. cbn [fst snd]. case_decide as Hin; cbn [fst snd].
    + exists js. split_and!; [done | done | |].
      * intros j e Hje. destruct (decide (j < length ms)%nat) as [Hj|Hj].
        -- apply (Hall j e). by apply first_occurrence_snoc in Hje.
        -- apply first_occurrence_last in Hje as (_ & _ & Hnew); [|lia].
           exfalso. by apply Hnew, Hms.
      * intros j Hj. rewrite length_app. specialize (Hlt j Hj). lia.
    + exists (js ++ [length ms]). split_and!.
      * apply Forall2_app; [done|]. constructor; [|constructor].
        split; [by rewrite list_lookup_middle|].
        intros j' e' Hj' He' Heq. apply Hin, Hms. rewrite <- Heq.
        apply list_elem_of_fmap_2. rewrite lookup_app_l in He' by done.
        by eapply list_elem_of_lookup_2.
      * apply StronglySorted_app_2; [|done|repeat constructor].
        intros j1 j2 Hj1 ->%list_elem_of_singleton. by apply Hlt.
      * intros j e Hje. apply elem_of_app.
        destruct (decide (j < length ms)%nat) as [Hj|Hj].
        -- left. apply (Hall j e). by apply first_occurrence_snoc in Hje.
        -- right. apply first_occurrence_last in Hje as (-> & _); [|lia].
           by apply list_elem_of_singleton.
      * intros j [Hj| ->%list_elem_of_singleton]%elem_of_app; rewrite length_app; simpl.
        -- specialize (Hlt j Hj). lia.
        -- lia.
Qed.

(** ** The extractor *)

Lemma find_emails_matches (text e : str) :
  e ∈ find_emails text -> e ∈ findall email_pattern text.
Proof. apply dedup_invariant. Qed.

(** What the pattern guarantees of every extracted email: a token whose
    top level domain is made of the characters of [[A-Z|a-z]]. *)
Lemma find_emails_tokens (text : str) :
  Forall (token_form tld_class) (find_emails text).
Proof.
  apply Forall_forall. intros e He%find_emails_matches.
  by apply scan_token in He.
Qed.

Lemma count_char_app (c : Z) (a b : str) :
  count_char c (a ++ b) = (count_char c a + count_char c b)%nat.
Proof. unfold count_char. by rewrite filter_app, length_app. Qed.

Lemma count_char_absent (c : Z) (s : str) :
  Forall (fun x => x <> c) s -> count_char c s = O.
Proof.
  unfold count_char. induction 1 as [|x s Hx _ IH]; [done|].
  by rewrite filter_cons_False.
Qed.

Lemma count_char_cons (c x : Z) (s : str) :
  count_char c (x :: s) = ((if decide (x = c) then 1 else 0) + count_char c s)%nat.
Proof. unfold count_char. rewrite filter_cons. by case_decide. Qed.

(** Two more scenarios of the specification: two addresses in a sentence,
    and a domain of several levels. *)
Example find_emails_two_addresses :
  find_emails (py "Contact support@company.com or sales@company.com.")
  = [py "support@company.com"; py "sales@company.com"].
Proof. vm_compute. reflexivity. Qed.

Example find_emails_multi_level_domain :
  find_emails (py "user@sub.domain.co") = [py "user@sub.domain.co"].
Proof. vm_compute. reflexivity. Qed.

(** C1: for every input string, the [count] field of the result of
    [hunt_emails] is the length of its [emails] sequence. *)
Theorem hunt_emails_count_is_length (text : str) :
  count (hunt_emails text) = length (emails (hunt_emails text)).
Proof. reflexivity. Qed.

(** C2: for every input string, the lowercase forms of the entries of
    [find_emails] are pairwise different. *)
Theorem find_emails_unique_modulo_case (text : str) :
  NoDup (lower <$> find_emails text).
Proof. apply dedup_invariant. Qed.

(** C3: for every input string, [find_emails] lists the raw matches that
    are the first occurrence of their lowercase form, each as it was
    matched, in the order of the input: there is a strictly increasing
    list [js] of indices into the matches such that the i-th output is
    the match at index [js !! i], no earlier match has its lowercase form,
    and every first occurrence is listed. *)
Theorem find_emails_first_occurrences (text : str) :
  exists js : list nat,
    Forall2 (first_occurrence (findall email_pattern text)) js (find_emails text) /\
    StronglySorted lt js /\
    (forall j e, first_occurrence (findall email_pattern text) j e -> j ∈ js).
Proof.
  destruct (dedup_positions (findall email_pattern text)) as (js & H1 & H2 & H3 & _).
  by exists js.
Qed.

(** C8: for every input string, the [text_length] field of the result of
    [hunt_emails] is the length of the input text. *)
Theorem hunt_emails_text_length (text : str) :
  text_length (hunt_emails text) = length text.
Proof. reflexivity. Qed.

(** C10: for every input string, every entry of [find_emails] contains
    exactly one ["@"]. *)
Theorem find_emails_one_at (text : str) :
  Forall (fun e => count_char (chr "@") e = 1%nat) (find_emails text).
Proof.
  eapply Forall_impl; [apply find_emails_tokens|].
  intros e (l & d & t & -> & Hl & _ & Hd & _ & Ht & _). unfold assemble.
  rewrite count_char_app, count_char_cons, count_char_app, count_char_cons.
  rewrite decide_True by done. rewrite decide_False by (by vm_compute).
  rewrite !count_char_absent; [done|..].
  - eapply Forall_impl; [exact Ht|]. intros c Hc ->. by vm_compute in Hc.
  - eapply Forall_impl; [exact Hd|]. intros c Hc ->. by vm_compute in Hc.
  - eapply Forall_impl; [exact Hl|]. intros c Hc. by apply local_not_at.
Qed.

(** C5: on ["bad-email@.com and good@ok.io"] the scan reports the single
    match ["good@ok.io"], which is what [find_emails] returns: the
    candidate whose domain starts with a dot is no match. *)
Theorem find_emails_dot_domain :
  findall email_pattern (py "bad-email@.com and good@ok.io") = [py "good@ok.io"] /\
  find_emails (py "bad-email@.com and good@ok.io") = [py "good@ok.io"].
Proof. split; vm_compute; reflexivity. Qed.

(** C6: on ["Reach John at JOHN.DOE@Example.ORG and john.doe@example.org"]
    the scan reports both occurrences, which have the same lowercase form;
    [hunt_emails] returns the first one alone, as it was written, and
    count 1. *)
Theorem hunt_emails_case_duplicate :
  let text := py "Reach John at JOHN.DOE@Example.ORG and john.doe@example.org" in
  findall email_pattern text = [py "JOHN.DOE@Example.ORG"; py "john.doe@example.org"] /\
  lower (py "JOHN.DOE@Example.ORG") = lower (py "john.doe@example.org") /\
  emails (hunt_emails text) = [py "JOHN.DOE@Example.ORG"] /\
  count (hunt_emails text) = 1%nat.
Proof. repeat split; vm_compute; reflexivity. Qed.

(** ** No exception, and the texts without a match *)

(** The pattern of the source compiles, to [email_pattern]. *)
Lemma re_compile_email : re_compile email_pattern_source = inr email_pattern.
Proof. reflexivity. Qed.

(** A repetition succeeds as soon as the rest of the pattern matches after
    one of its runs. *)
Lemma greedy_complete (cs : list set_item) (kont : option Z -> str -> option nat)
    (run : str) : forall (rest : str) (min : nat) (prev : option Z),
  Forall (fun c => in_class cs c = true) run ->
  (min <= length run)%nat ->
  is_Some (kont (last_char prev run) rest) ->
  is_Some (greedy cs kont min prev (run ++ rest)).
Proof.
  induction run as [|x run IH]; intros rest min prev Hrun Hmin Hk.
  - simpl in Hmin. assert (min = O) as -> by lia.
    change (last_char prev []) with prev in Hk.
    destruct rest as [|y rest]; simpl; [done|].
    destruct (in_class cs y); [|done].
    by destruct (greedy cs kont O (Some y) rest).
  - inversion Hrun as [|? ? Hx Hrun']; subst. simpl. rewrite Hx.
    rewrite last_char_cons in Hk.
    assert (Hmin' : (pred min <= length run)%nat).
    { cbn [length] in Hmin. destruct min; simpl; lia. }
    destruct (IH rest (pred min) (Some x) Hrun' Hmin' Hk) as [n ->].
    by eexists.
Qed.

Lemma last_assemble (l d t : str) :
  (2 <= length t)%nat -> last_char (Some (chr ".")) t = last (assemble l d t).
Proof.
  intros Ht. unfold assemble, last_char.
  rewrite last_app, last_cons, last_app, last_cons.
  destruct (last t) eqn:E; [done|]. apply last_None in E. subst. simpl in Ht. lia.
Qed.

(** Where a token stands between two word boundaries, the matcher finds a
    match. *)
Lemma match_email_complete (l d t : str) (prev : option Z) (rest : str) :
  email_parts tld_class l d t ->
  at_boundary prev (assemble l d t ++ rest) = true ->
  at_boundary (last (assemble l d t)) rest = true ->
  is_Some (match_here email_pattern prev (assemble l d t ++ rest)).
Proof.
  intros (Hl & Hllen & Hd & Hdlen & Ht & Htlen) Hb Hb'.
  unfold email_pattern. cbn [match_here]. rewrite Hb.
  unfold assemble. rewrite <- app_assoc, <- !app_comm_cons, <- app_assoc, <- !app_comm_cons.
  apply greedy_complete; [done..|].
  cbn [match_here]. rewrite Z.eqb_refl.
  apply fmap_is_Some, greedy_complete; [done..|].
  cbn [match_here]. rewrite Z.eqb_refl.
  apply fmap_is_Some, greedy_complete; [done..|].
  cbn [match_here]. rewrite (last_assemble l d t) by done. by rewrite Hb'.
Qed.

(** Every match of the scan was found by the matcher at some position. *)
Lemma scan_position (p : list node) (s : str) : forall (skip : nat) (prev : option Z) (e : str),
  e ∈ scan p skip prev s ->
  exists (pre s' : str) (n : nat),
    s = pre ++ s' /\ match_here p (last_char prev pre) s' = Some n.
Proof.
  induction s as [|x s IH]; intros skip prev e; cbn [scan].
  - by intros ?%elem_of_nil.
  - assert (Hrec : forall skip', e ∈ scan p skip' (Some x) s ->
              exists (pre s' : str) (n : nat),
                x :: s = pre ++ s' /\ match_here p (last_char prev pre) s' = Some n).
    { intros skip' (pre & s' & n & -> & Hm)%IH.
      exists (x :: pre), s', n. by rewrite last_char_cons. }
    destruct skip as [|j]; [|by apply Hrec].
    destruct (match_here p prev (x :: s)) as [n|] eqn:Hm; [|by apply Hrec].
    intros _. by exists [], (x :: s), n.
Qed.

(** A position where the matcher succeeds, outside the match in progress,
    leaves the scan with a match. *)
Lemma scan_finds (p : list node) (s : str) (pre : str) : forall (skip : nat) (prev : option Z),
  (skip <= length pre)%nat -> s <> [] ->
  is_Some (match_here p (last_char prev pre) s) ->
  scan p skip prev (pre ++ s) <> [].
Proof.
  induction pre as [|x pre IH]; intros skip prev Hskip Hs Hm.
  - simpl in Hskip. assert (skip = O) as -> by lia.
    change (last_char prev []) with prev in Hm. destruct Hm as [n Hm].
    destruct s as [|y s]; [done|]. simpl app. cbn [scan]. by rewrite Hm.
  - rewrite last_char_cons in Hm. simpl app. cbn [scan].
    destruct skip as [|j].
    + destruct (match_here p prev (x :: pre ++ s)); [done|]. apply IH; [lia|done..].
    + apply IH; [simpl in Hskip; lia|done..].
Qed.

(** The scan finds nothing exactly in the texts without a match. *)
Lemma findall_nil_iff (text : str) :
  findall email_pattern text = [] <-> ~ occurrence text.
Proof.
  split.
  - intros Hnil (pre & l & d & t & post & -> & Hparts & Hb & Hb').
    revert Hnil. apply scan_finds; [simpl; lia | |].
    + intros H%(f_equal length). rewrite length_app, length_assemble in H.
      simpl in H. lia.
    + apply match_email_complete; [done| |done].
      unfold last_char. by destruct (last pre).
  - intros Hno. destruct (findall email_pattern text) as [|e es] eqn:Hscan; [done|].
    destruct Hno.
    assert (He : e ∈ scan email_pattern O None text) by (unfold findall in Hscan; rewrite Hscan; left).
    apply scan_position in He as (pre & s' & n & -> & Hm).
    apply match_email_shape in Hm as (l & d & t & rest & -> & _ & Hparts & Hb & Hb').
    exists pre, l, d, t, rest. split_and!; [done..| |].
    + rewrite <- Hb. unfold last_char. by destruct (last pre).
    + rewrite <- last_assemble; [done|]. apply Hparts.
Qed.

(** C7: [hunt_emails] raises no error: on every string the run of the
    extractor with the exceptions of its calls returns a result, the
    dictionary of [hunt_emails], whose count is the length of its sequence
    and whose text length is the length of the input; on the empty text the
    sequence is empty and the count 0; on a text without a match (nowhere in
    it a token of the pattern between two word boundaries) the sequence is
    empty, the count 0 and the text length the length of the text. *)
Theorem hunt_emails_total :
  (forall text : str, exists r : result,
     run_hunt_emails text = inr r /\ r = hunt_emails text /\
     count r = length (emails r) /\ text_length r = length text) /\
  run_hunt_emails [] = inr {| emails := []; count := 0; text_length := 0 |} /\
  (forall text : str, ~ occurrence text ->
     run_hunt_emails text
     = inr {| emails := []; count := 0; text_length := length text |}).
Proof.
  assert (Hrun : forall text, run_hunt_emails text = inr (hunt_emails text)).
  { intros text. unfold run_hunt_emails, run_find_emails, run_findall.
    by rewrite re_compile_email. }
  split_and!.
  - intros text. exists (hunt_emails text). by rewrite Hrun.
  - by rewrite Hrun.
  - intros text Hno%findall_nil_iff. rewrite Hrun.
    unfold hunt_emails, find_emails. by rewrite Hno.
Qed.

(** C9, as the code has it: when every extracted email starts and ends
    with a word character, joining the sequence returned by [find_emails]
    with a delimiter character that is no word character, not in the set
    of the local part and not ["|"] (a space, say), and running
    [find_emails] on the result, returns the same sequence, hence the same
    set of lowercase emails. *)
Theorem find_emails_rerun (dl : Z) (text : str) :
  delimiter_ok dl = true ->
  Forall word_ended (find_emails text) ->
  find_emails (join [dl] (find_emails text)) = find_emails text /\
  lowered_set (find_emails (join [dl] (find_emails text))) = lowered_set (find_emails text).
Proof.
  intros Hdl Hword.
  assert (Hrun : find_emails (join [dl] (find_emails text)) = find_emails text);
    [|by rewrite Hrun].
  unfold find_emails at 1. unfold findall. cbn zeta.
  rewrite scan_join; [|done| |done].
  - apply (dedup_distinct _ ∅ []); [apply dedup_invariant|].
    intros e _. apply not_elem_of_empty.
  - pose proof (find_emails_tokens text) as Htok.
    apply Forall_forall. intros e He. split.
    + by eapply Forall_forall in Htok.
    + by eapply Forall_forall in Hword.
Qed.

(** A token of the specification's grammar ends with a dot and at least
    two letters. *)
Lemma letters_after_last_dot (e : str) :
  token_form letter_class e ->
  exists t rest : str,
    reverse e = t ++ chr "." :: rest /\
    Forall (fun c => in_class letter_class c = true) t /\ (2 <= length t)%nat.
Proof.
  intros (l & d & t & -> & _ & _ & _ & _ & Ht & Htlen).
  exists (reverse t), (reverse d ++ chr "@" :: reverse l). split_and!.
  - unfold assemble.
    rewrite reverse_app, reverse_cons, reverse_app, reverse_cons.
    by rewrite <- !app_assoc.
  - by apply Forall_reverse.
  - by rewrite length_reverse.
Qed.

(** C4, where the code departs from it: on the pipe-separated text
    ["alice@example.com|bob@example.com"] the only email returned is
    ["alice@example.com|bob"], which is no token of the grammar with a top
    level domain of letters: ["|"] is in the set [[A-Z|a-z]] of the
    pattern. *)
Theorem find_emails_pipe_in_tld :
  find_emails (py "alice@example.com|bob@example.com") = [py "alice@example.com|bob"] /\
  ~ token_form letter_class (py "alice@example.com|bob").
Proof.
  split; [vm_compute; reflexivity|].
  intros (t & rest & Hrev & Ht & Hlen)%letters_after_last_dot.
  vm_compute in Hrev.
  destruct t as [|a [|b [|c [|c' t]]]]; simpl in Hlen; try lia;
    simpl in Hrev; try discriminate Hrev.
  injection Hrev as <- <- <- <- _.
  apply Forall_cons in Ht as [_ Ht]. apply Forall_cons in Ht as [_ Ht].
  apply Forall_cons in Ht as [_ Ht]. apply Forall_cons in Ht as [Hbar _].
  vm_compute in Hbar. discriminate.
Qed.

(** ** More of the extractor *)

Lemma count_at_assemble (l d t : str) :
  email_parts tld_class l d t -> count_char (chr "@") (assemble l d t) = 1%nat.
Proof.
  intros (Hl & _ & Hd & _ & Ht & _). unfold assemble.
  rewrite count_char_app, count_char_cons, count_char_app, count_char_cons.
  rewrite decide_True by done. rewrite decide_False by (by vm_compute).
  rewrite !count_char_absent; [done|..].
  - eapply Forall_impl; [exact Ht|]. intros c Hc ->. by vm_compute in Hc.
  - eapply Forall_impl; [exact Hd|]. intros c Hc ->. by vm_compute in Hc.
  - eapply Forall_impl; [exact Hl|]. intros c Hc. by apply local_not_at.
Qed.

Lemma count_char_take_drop (c : Z) (n : nat) (s : str) :
  count_char c s = (count_char c (take n s) + count_char c (drop n s))%nat.
Proof. by rewrite <- count_char_app, take_drop. Qed.

(** The matches of the scan lie one after the other in the text: there are
    at most as many as the text has ["@"], and their lengths add up to at
    most the length of the text. *)
Lemma scan_bounds (s : str) : forall (skip : nat) (prev : option Z),
  (length (scan email_pattern skip prev s) <= count_char (chr "@") (drop skip s))%nat /\
  (sum_list (length <$> scan email_pattern skip prev s) <= length (drop skip s))%nat.
Proof.
  induction s as [|x s IH]; intros skip prev; cbn [scan].
  - split; simpl; lia.
  - destruct skip as [|j]; [|apply IH].
    destruct (match_here email_pattern prev (x :: s)) as [n|] eqn:Hm.
    + apply match_email_shape in Hm as (l & d & t & rest & Hs & -> & Hparts & _).
      pose proof (length_assemble l d t) as Hlen.
      destruct (IH (pred (length (assemble l d t))) (Some x)) as [IH1 IH2].
      assert (Hdrop : drop (pred (length (assemble l d t))) s
                      = drop (length (assemble l d t)) (x :: s)).
      { rewrite Hlen. replace (length l + S (length d + S (length t + 0)))%nat
          with (S (length l + (length d + S (length t + 0))))%nat by lia. done. }
      rewrite Hdrop in IH1, IH2.
      change (drop 0 (x :: s)) with (x :: s).
      assert (Htake : take (length (assemble l d t)) (x :: s) = assemble l d t)
        by (by rewrite Hs, take_app_length).
      assert (Hsplit : length (x :: s) = (length (assemble l d t)
                + length (drop (length (assemble l d t)) (x :: s)))%nat).
      { rewrite <- (take_drop (length (assemble l d t)) (x :: s)) at 1.
        by rewrite length_app, Htake. }
      split.
      * rewrite (count_char_take_drop _ (length (assemble l d t)) (x :: s)), Htake.
        rewrite count_at_assemble by done. simpl. lia.
      * rewrite Hsplit, Htake. cbn [fmap list_fmap sum_list_with]. unfold id at 1.
        apply Nat.add_le_mono_l. exact IH2.
    + destruct (IH O (Some x)) as [IH1 IH2]. change (drop 0 s) with s in *.
      change (drop 0 (x :: s)) with (x :: s). split.
      * rewrite count_char_cons. lia.
      * simpl. lia.
Qed.

(** A match of the scan is a piece of the text. *)
Lemma scan_infix (p : list node) (s : str) : forall (skip : nat) (prev : option Z) (e : str),
  e ∈ scan p skip prev s -> exists pre post : str, s = pre ++ e ++ post.
Proof.
  induction s as [|x s IH]; intros skip prev e; cbn [scan].
  - by intros ?%elem_of_nil.
  - assert (Hrec : forall skip' prev', e ∈ scan p skip' prev' s ->
              exists pre post : str, x :: s = pre ++ e ++ post).
    { intros skip' prev' (pre & post & ->)%IH. by exists (x :: pre), post. }
    destruct skip as [|j]; [|by apply Hrec].
    destruct (match_here p prev (x :: s)) as [n|]; [|by apply Hrec].
    intros [->|He]%elem_of_cons; [|by eapply Hrec].
    exists [], (drop n (x :: s)). by rewrite app_nil_l, take_drop.
Qed.

(** The loop keeps the matches in their order. *)
Lemma dedup_sublist (ms : list str) : sublist (foldl dedup_step (∅, []) ms).2 ms.
Proof.
  induction ms as [|m ms IH] using rev_ind; [done|].
  rewrite foldl_snoc. destruct (foldl dedup_step (∅, []) ms) as [seen out].
  unfold dedup_step. cbn [fst snd] in *. case_decide; cbn [fst snd].
  - by apply sublist_inserts_r.
  - by apply sublist_app.
Qed.

Lemma sublist_sum_length (l k : list str) :
  sublist l k -> (sum_list (length <$> l) <= sum_list (length <$> k))%nat.
Proof.
  induction 1 as [|x l k _ IH|x l k _ IH]; [done|..];
    rewrite ?fmap_cons; cbn [sum_list_with]; unfold id in *; lia.
Qed.

Lemma token_ascii (e : str) :
  token_form tld_class e -> Forall (fun c => is_ascii c = true) e /\ (6 <= length e)%nat.
Proof.
  intros (l & d & t & -> & Hl & Hllen & Hd & Hdlen & Ht & Htlen). split.
  - unfold assemble.
    assert (Hcls : forall cs, (forall c, in_class cs c = true -> is_ascii c = true) ->
              forall s : str, Forall (fun c => in_class cs c = true) s ->
              Forall (fun c => is_ascii c = true) s).
    { intros cs Hcs s Hs. eapply Forall_impl; [exact Hs | exact Hcs]. }
    repeat first [apply Forall_app; split | apply Forall_cons; split]; try done.
    + apply (Hcls local_class); [|done]. intros c. unfold is_ascii.
      rewrite andb_true_iff, Z.leb_le, Z.ltb_lt. class_solve.
    + apply (Hcls domain_class); [|done]. intros c. unfold is_ascii.
      rewrite andb_true_iff, Z.leb_le, Z.ltb_lt. class_solve.
    + apply (Hcls tld_class); [|done]. intros c. unfold is_ascii.
      rewrite andb_true_iff, Z.leb_le, Z.ltb_lt. class_solve.
  - rewrite length_assemble. lia.
Qed.

Lemma findall_bounds (text : str) :
  (length (findall email_pattern text) <= count_char (chr "@") text)%nat /\
  (sum_list (length <$> findall email_pattern text) <= length text)%nat.
Proof. apply (scan_bounds text O None). Qed.

Lemma sum_length_lower_bound (n : nat) (l : list str) :
  Forall (fun e => (n <= length e)%nat) l ->
  (n * length l <= sum_list (length <$> l))%nat.
Proof.
  induction 1 as [|e l He _ IH]; [simpl; lia|].
  rewrite fmap_cons. cbn [sum_list_with length]. unfold id in *. lia.
Qed.

(** X1: a text without ["@"] has no email: the sequence is empty, the count
    0 and the text length the length of the text. *)
Theorem hunt_emails_no_at (text : str) :
  chr "@" ∉ text ->
  hunt_emails text = {| emails := []; count := 0; text_length := length text |}.
Proof.
  intros Hat. assert (Hnil : findall email_pattern text = []).
  { apply length_zero_iff_nil. pose proof (findall_bounds text) as [Hle _].
    rewrite count_char_absent in Hle; [lia|].
    apply Forall_forall. by intros c Hc ->. }
  unfold hunt_emails, find_emails. by rewrite Hnil.
Qed.

(** X2: every extracted email is a contiguous piece of the input text. *)
Theorem find_emails_infix (text : str) :
  Forall (fun e => exists pre post : str, text = pre ++ e ++ post) (find_emails text).
Proof.
  apply Forall_forall. intros e He%find_emails_matches.
  by apply scan_infix in He.
Qed.

(** X3: the count of [hunt_emails] is at most the number of ["@"] in the
    text. *)
Theorem hunt_emails_count_le_at (text : str) :
  (count (hunt_emails text) <= count_char (chr "@") text)%nat.
Proof.
  cbn [hunt_emails count]. pose proof (findall_bounds text) as [Hle _].
  pose proof (sublist_length _ _ (dedup_sublist (findall email_pattern text))) as Hsub.
  unfold find_emails. cbn zeta. lia.
Qed.

(** X4: the extracted emails have six characters or more each, and their
    lengths add up to at most the length of the text (the matches do not
    overlap): six times the count is at most the text length. *)
Theorem hunt_emails_lengths_bound (text : str) :
  Forall (fun e => (6 <= length e)%nat) (emails (hunt_emails text)) /\
  (6 * count (hunt_emails text) <= sum_list (length <$> emails (hunt_emails text)))%nat /\
  (sum_list (length <$> emails (hunt_emails text)) <= text_length (hunt_emails text))%nat.
Proof.
  cbn [hunt_emails count emails text_length].
  assert (Hsix : Forall (fun e => (6 <= length e)%nat) (find_emails text)).
  { eapply Forall_impl; [apply find_emails_tokens|].
    intros e He. by apply token_ascii in He as [_ He]. }
  split_and!; [done | by apply sum_length_lower_bound |].
  pose proof (findall_bounds text) as [_ Hle].
  pose proof (sublist_sum_length _ _ (dedup_sublist (findall email_pattern text))) as Hsub.
  unfold find_emails. cbn zeta. lia.
Qed.

(** X5: whatever the text holds, every extracted email is pure ASCII, and
    its lowercase form is the ASCII one, letter by letter. *)
Theorem find_emails_ascii (text : str) :
  Forall (fun e => Forall (fun c => is_ascii c = true) e /\ lower e = ascii_lower <$> e)
    (find_emails text).
Proof.
  eapply Forall_impl; [apply find_emails_tokens|].
  intros e [He _]%token_ascii. split; [done|].
  assert (forallb is_ascii e = true) as Hall.
  { induction He as [|c e Hc _ IH]; [done|]. simpl. by rewrite Hc, IH. }
  unfold lower. by rewrite Hall.
Qed.

(** X6: no match is lost but for its casing: the lowercase form of every
    match of the scan is the lowercase form of an extracted email. *)
Theorem find_emails_covers_matches (text : str) :
  Forall (fun m => lower m ∈ lower <$> find_emails text) (findall email_pattern text).
Proof.
  apply Forall_forall. intros m Hm.
  destruct (dedup_invariant (findall email_pattern text)) as (Hms & Hout & _).
  apply Hout, Hms. by apply list_elem_of_fmap_2.
Qed.

(** X7: when the matches have pairwise different lowercase forms,
    [find_emails] returns all of them, in order. *)
Theorem find_emails_all_matches (text : str) :
  NoDup (lower <$> findall email_pattern text) ->
  find_emails text = findall email_pattern text.
Proof.
  intros Hnd. unfold find_emails. cbn zeta.
  apply (dedup_distinct _ ∅ []); [done|]. intros e _. apply not_elem_of_empty.
Qed.

(** X8: a list of addresses, each a token of the pattern that starts and
    ends with a word character, with pairwise different lowercase forms,
    joined by a delimiter character (no word character, not in the set of
    the local part, not ["|"]), is extracted in full and in order. *)
Theorem find_emails_delimited_list (dl : Z) (es : list str) :
  delimiter_ok dl = true ->
  Forall (fun e => token_form tld_class e /\ word_ended e) es ->
  NoDup (lower <$> es) ->
  find_emails (join [dl] es) = es.
Proof.
  intros Hdl Hes Hnd. unfold find_emails, findall. cbn zeta.
  rewrite scan_join by done.
  apply (dedup_distinct _ ∅ []); [done|]. intros e _. apply not_elem_of_empty.
Qed.

End Extractor.

(** ** The key store *)

Lemma truthy_true (s : str) : truthy s = true <-> s <> [].
Proof. by destruct s. Qed.

(** X9: [verify_api_key] returns an entry exactly for a header that is a
    non-empty string and a key of the store, and the entry is the stored
    one; every refusal has status 401. *)
Theorem verify_api_key_spec (store : gmap str key_info) (x_api_key : option str) :
  (forall info : key_info,
     verify_api_key store x_api_key = inr info <->
     exists key : str, x_api_key = Some key /\ key <> [] /\ store !! key = Some info) /\
  (forall e : http_exception, verify_api_key store x_api_key = inl e -> status_code e = 401).
Proof.
  unfold verify_api_key. split.
  - intros info. destruct x_api_key as [[|c key]|].
    + split; [done|]. by intros (key & [= <-] & Hne & _).
    + destruct (store !! (c :: key)) as [info'|] eqn:Hl.
      * split; [intros [= <-]; by exists (c :: key)|].
        intros (key' & [= <-] & _ & Hl'). congruence.
      * split; [done|]. intros (key' & [= <-] & _ & Hl'). congruence.
    + split; [done|]. by intros (key & [=] & _).
  - intros e. destruct x_api_key as [[|c key]|]; try by intros [= <-].
    destruct (store !! (c :: key)); [done|]. by intros [= <-].
Qed.

(** X10: the key that [generate_api_key] hands out verifies right away, and
    the entry found is the one of the response: its name (["Test Key"] when
    the request has none), its timestamp, and the tier ["free"]. *)
Theorem generate_then_verify (store : gmap str key_info) (request_name : option str)
    (random_part now : str) :
  let (store', response) := generate_api_key store request_name random_part now in
  verify_api_key store' (Some (response_api_key response))
  = inr {| name := response_name response; created_at := response_created_at response;
           tier := response_tier response |} /\
  response_name response = name_or_default request_name /\
  response_tier response = py "free".
Proof.
  unfold generate_api_key. cbv zeta.
  cbn [response_api_key response_name response_created_at response_tier].
  split; [|done].
  change (py "test_key_" ++ random_part) with (chr "t" :: py "est_key_" ++ random_part).
  unfold verify_api_key. by rewrite lookup_insert_eq.
Qed.

(** X11: [generate_api_key] changes the answer of [verify_api_key] for no
    header but the new key. *)
Theorem generate_keeps_others (store : gmap str key_info) (request_name : option str)
    (random_part now : str) (x_api_key : option str) :
  x_api_key <> Some (py "test_key_" ++ random_part) ->
  verify_api_key (generate_api_key store request_name random_part now).1 x_api_key
  = verify_api_key store x_api_key.
Proof.
  intros Hne. unfold generate_api_key, verify_api_key. cbn [fst].
  destruct x_api_key as [[|c key]|]; [done| |done].
  rewrite lookup_insert_ne; [done|]. intros Heq. apply Hne. by rewrite Heq.
Qed.

Lemma generated_cons (store : gmap str key_info) (r : key_request) (reqs : list key_request) :
  generated store (r :: reqs)
  = generated (generate_api_key store (request_name r) (random_part r) (now r)).1 reqs.
Proof. reflexivity. Qed.

Lemma generated_foreign (reqs : list key_request) :
  forall (store : gmap str key_info) (key : str),
  ~ (py "test_key_" `prefix_of` key) ->
  generated store reqs !! key = store !! key.
Proof.
  induction reqs as [|r reqs IH]; intros store key Hpre; [done|].
  rewrite generated_cons, IH by done.
  unfold generate_api_key. cbn [fst]. apply lookup_insert_ne.
  intros <-. apply Hpre. by eexists.
Qed.

Lemma generated_is_Some (reqs : list key_request) :
  forall (store : gmap str key_info) (key : str),
  is_Some (store !! key) -> is_Some (generated store reqs !! key).
Proof.
  induction reqs as [|r reqs IH]; intros store key Hkey; [done|].
  rewrite generated_cons. apply IH.
  unfold generate_api_key. cbn [fst]. apply lookup_insert_is_Some'. by right.
Qed.

(** X12: the calls of [generate_api_key] touch only keys that start with
    ["test_key_"]: the entry of any other key is the same after any sequence
    of calls. *)
Theorem generated_keeps_foreign_keys (reqs : list key_request)
    (store : gmap str key_info) (key : str) :
  ~ (py "test_key_" `prefix_of` key) ->
  generated store reqs !! key = store !! key.
Proof. apply generated_foreign. Qed.

(** X13: no call of [generate_api_key] revokes a key: a key of the store is
    a key of the store after any sequence of calls. *)
Theorem generated_keeps_keys (reqs : list key_request)
    (store : gmap str key_info) (key : str) :
  is_Some (store !! key) -> is_Some (generated store reqs !! key).
Proof. apply generated_is_Some. Qed.

(** ** The environment keys and the request text *)

Section Service.

Variable unicode_isspace : Z -> bool.

Lemma lstrip_nil (s : str) :
  lstrip unicode_isspace s = [] <-> Forall (fun c => is_space unicode_isspace c = true) s.
Proof.
  induction s as [|c s IH]; simpl; [by split|].
  destruct (is_space unicode_isspace c) eqn:Hc.
  - rewrite IH. split; [by constructor | by inversion 1].
  - split; [done|]. inversion 1; congruence.
Qed.

Lemma lstrip_head (s : str) :
  match lstrip unicode_isspace s with
  | [] => True
  | c :: _ => is_space unicode_isspace c = false
  end.
Proof.
  induction s as [|c s IH]; simpl; [done|].
  destruct (is_space unicode_isspace c) eqn:Hc; [done|]. by rewrite Hc.
Qed.

(** [strip] leaves nothing exactly of the strings of whitespace. *)
Lemma strip_nil (s : str) :
  strip unicode_isspace s = [] <-> Forall (fun c => is_space unicode_isspace c = true) s.
Proof.
  unfold strip. split.
  - intros H. apply (f_equal reverse) in H. rewrite reverse_involutive in H.
    change (reverse []) with (@nil Z) in H.
    apply lstrip_nil, Forall_reverse in H. rewrite reverse_involutive in H.
    apply lstrip_nil. pose proof (lstrip_head s) as Hhead.
    destruct (lstrip unicode_isspace s) as [|c s']; [done|].
    inversion H; congruence.
  - intros H%lstrip_nil. by rewrite H.
Qed.

Lemma split_cons (sep : Z) (s : str) :
  exists (piece : str) (pieces : list str), split sep s = piece :: pieces.
Proof.
  destruct s as [|c s]; simpl; [by eexists _, _|].
  destruct (c =? sep); [by eexists _, _|].
  destruct (split sep s); by eexists _, _.
Qed.

Lemma split_head (sep c : Z) (s : str) :
  c <> sep ->
  exists (piece : str) (pieces : list str), split sep (c :: s) = (c :: piece) :: pieces.
Proof.
  intros Hc%Z.eqb_neq. cbn [split]. rewrite Hc.
  destruct (split_cons sep s) as (piece & pieces & ->). by eexists _, _.
Qed.

Lemma load_keys_sound (utcnow : nat -> str) (keys : list str) :
  forall (i : nat) (store : gmap str key_info) (k : str) (info : key_info),
  load_keys unicode_isspace utcnow i keys store !! k = Some info ->
  store !! k = Some info \/
  (k <> [] /\ (exists c, c ∈ keys /\ k = strip unicode_isspace c) /\ environment_entry info).
Proof.
  induction keys as [|key keys IH]; intros i store k info H; [by left|].
  cbn [load_keys] in H. apply IH in H as [H|(Hk & (c & Hc & ->) & Hinfo)].
  - destruct (truthy (strip unicode_isspace key)) eqn:Hkey; [|by left].
    apply lookup_insert_Some in H as [[<- <-]|[_ H]]; [|by left].
    right. split_and!; [by apply truthy_true | | done].
    exists key. split; [by left | done].
  - right. split_and!; [done| |done]. exists c. split; [by right | done].
Qed.

Lemma load_keys_complete (utcnow : nat -> str) (keys : list str) :
  forall (i : nat) (store : gmap str key_info),
  (forall k info, store !! k = Some info -> environment_entry info ->
     exists info', load_keys unicode_isspace utcnow i keys store !! k = Some info' /\
                   environment_entry info') /\
  (forall c, c ∈ keys -> strip unicode_isspace c <> [] ->
     exists info', load_keys unicode_isspace utcnow i keys store !! strip unicode_isspace c = Some info' /\
                   environment_entry info').
Proof.
  induction keys as [|key keys IH]; intros i store.
  - split; [by eauto|]. by intros c ?%elem_of_nil.
  - cbn [load_keys]. destruct (truthy (strip unicode_isspace key)) eqn:Hkey.
    + destruct (IH (S i) (<[strip unicode_isspace key :=
                   {| name := py "Environment Key"; created_at := utcnow i ++ py "Z";
                      tier := py "premium" |}]> store)) as [IH1 IH2].
      split.
      * intros k info Hk Hinfo. destruct (decide (strip unicode_isspace key = k)) as [<-|Hne].
        -- eapply IH1; [apply lookup_insert_eq | done].
        -- eapply IH1; [by rewrite lookup_insert_ne | done].
      * intros c [->|Hc]%elem_of_cons Hne; [|by apply IH2].
        eapply IH1; [apply lookup_insert_eq | done].
    + destruct (IH (S i) store) as [IH1 IH2]. split; [done|].
      intros c [->|Hc]%elem_of_cons Hne; [|by apply IH2].
      apply truthy_true in Hne. congruence.
Qed.

Lemma load_keys_keeps_keys (utcnow : nat -> str) (keys : list str) :
  forall (i : nat) (store : gmap str key_info) (k : str),
  is_Some (store !! k) -> is_Some (load_keys unicode_isspace utcnow i keys store !! k).
Proof.
  induction keys as [|key keys IH]; intros i store k Hk; [done|].
  cbn [load_keys]. apply IH. destruct (truthy (strip unicode_isspace key)); [|done].
  apply lookup_insert_is_Some'. by right.
Qed.

Lemma load_env_keys_sound_aux (utcnow : nat -> str) (env : option str)
    (store : gmap str key_info) (k : str) (info : key_info) :
  load_env_keys unicode_isspace utcnow env store !! k = Some info ->
  store !! k = Some info \/
  (k <> [] /\
   (exists c : str, c ∈ MASTER_API_KEYS env /\ k = strip unicode_isspace c) /\
   environment_entry info).
Proof.
  unfold load_env_keys. destruct (MASTER_API_KEYS env) as [|first rest]; [by left|].
  destruct (truthy first); [|by left]. apply load_keys_sound.
Qed.

(** X14: when the variable [API_KEYS] is not set, is empty, or starts with
    a comma, no key of the environment is loaded, whatever follows. *)
Theorem load_env_keys_guard (utcnow : nat -> str) (store : gmap str key_info) :
  load_env_keys unicode_isspace utcnow None store = store /\
  load_env_keys unicode_isspace utcnow (Some []) store = store /\
  (forall rest : str,
     load_env_keys unicode_isspace utcnow (Some (chr "," :: rest)) store = store).
Proof. split_and!; [done | done |]. intros rest. reflexivity. Qed.

(** X15: an entry of the store after the environment is read is an entry
    of the store before, or the entry of a key of the environment: the key
    is not empty and is a component of the variable, stripped, and the entry
    has the name ["Environment Key"] and the tier ["premium"]. *)
Theorem load_env_keys_sound (utcnow : nat -> str) (env : option str)
    (store : gmap str key_info) (k : str) (info : key_info) :
  load_env_keys unicode_isspace utcnow env store !! k = Some info ->
  store !! k = Some info \/
  (k <> [] /\
   (exists c : str, c ∈ MASTER_API_KEYS env /\ k = strip unicode_isspace c) /\
   environment_entry info).
Proof. apply load_env_keys_sound_aux. Qed.

(** X16: when the variable is set and starts with another character than a
    comma, every component that is not whitespace only is a key of the
    store, stripped, with the entry of a key of the environment. *)
Theorem load_env_keys_complete (utcnow : nat -> str) (c0 : Z) (rest : str)
    (store : gmap str key_info) (c : str) :
  c0 <> chr "," ->
  c ∈ MASTER_API_KEYS (Some (c0 :: rest)) ->
  strip unicode_isspace c <> [] ->
  exists info : key_info,
    load_env_keys unicode_isspace utcnow (Some (c0 :: rest)) store
      !! strip unicode_isspace c = Some info /\
    environment_entry info.
Proof.
  intros Hc0 Hc Hne. unfold load_env_keys.
  assert (Hfirst : exists piece pieces,
             MASTER_API_KEYS (Some (c0 :: rest)) = (c0 :: piece) :: pieces).
  { unfold MASTER_API_KEYS. by apply split_head. }
  destruct Hfirst as (piece & pieces & Hfirst). rewrite Hfirst in Hc |- *.
  cbn [truthy]. by apply load_keys_complete.
Qed.

(** X17: in the store of the running service (the store at import time, the
    keys of the environment, then any calls of [generate_api_key]) the empty
    string is no key, so [verify_api_key] refuses no stored key as missing,
    and the demo key is still a key. *)
Theorem running_store_keys (utcnow : nat -> str) (env : option str)
    (reqs : list key_request) :
  let store := generated (load_env_keys unicode_isspace utcnow env API_KEYS) reqs in
  store !! [] = None /\ is_Some (store !! py "demo_key_12345").
Proof.
  cbn zeta. split.
  - rewrite generated_foreign.
    + apply eq_None_not_Some. intros [info Hinfo].
      apply load_env_keys_sound_aux in Hinfo as [Hinfo|(Hne & _)]; [|done].
      unfold API_KEYS in Hinfo. by apply lookup_singleton_Some in Hinfo as [? _].
    + intros [k Hk]. discriminate Hk.
  - apply generated_is_Some. unfold load_env_keys.
    assert (Hdemo : is_Some (API_KEYS !! py "demo_key_12345")).
    { unfold API_KEYS. rewrite lookup_singleton_eq. by eexists. }
    destruct (MASTER_API_KEYS env) as [|first rest]; [done|].
    destruct (truthy first); [|done]. by apply load_keys_keeps_keys.
Qed.

(** X18: [text_not_empty] raises its [ValueError] exactly on the texts made
    of whitespace only (the empty text among them), and returns any other
    text as it is. *)
Theorem text_not_empty_spec (v : str) :
  text_not_empty unicode_isspace v
  = if decide (Forall (fun c => is_space unicode_isspace c = true) v)
    then inl (py "Text cannot be empty or whitespace only")
    else inr v.
Proof.
  unfold text_not_empty. case_decide as Hws.
  - apply strip_nil in Hws. rewrite Hws. by rewrite orb_true_r.
  - destruct v as [|c v]; [by destruct Hws|].
    destruct (strip unicode_isspace (c :: v)) eqn:Hs; [|done].
    by apply strip_nil in Hs.
Qed.

End Service.

(** ** Instances *)

(** C9 as stated fails: on ["a@b.cc.d@e.ff"] the emails are ["a@b.cc"] and
    [".d@e.ff"], which starts with a dot after the word character that ends
    the first match; joined by a space, the second run finds ["a@b.cc"] and
    ["d@e.ff"], and the two sets of lowercase emails differ. *)
Lemma find_emails_rerun_differs :
  (forall ua ul, find_emails ua ul (py "a@b.cc.d@e.ff") = [py "a@b.cc"; py ".d@e.ff"]) /\
  (forall ua ul,
     find_emails ua ul (join (py " ") (find_emails ua ul (py "a@b.cc.d@e.ff")))
     = [py "a@b.cc"; py "d@e.ff"]) /\
  (forall ua ul,
     lowered_set ul (find_emails ua ul (join (py " ") (find_emails ua ul (py "a@b.cc.d@e.ff"))))
     <> lowered_set ul (find_emails ua ul (py "a@b.cc.d@e.ff"))).
Proof.
  assert (H1 : forall ua ul,
             find_emails ua ul (py "a@b.cc.d@e.ff") = [py "a@b.cc"; py ".d@e.ff"]).
  { intros. vm_compute. reflexivity. }
  assert (H2 : forall ua ul,
             find_emails ua ul (join (py " ") (find_emails ua ul (py "a@b.cc.d@e.ff")))
             = [py "a@b.cc"; py "d@e.ff"]).
  { intros. vm_compute. reflexivity. }
  split_and!; [done..|].
  intros ua ul Heq. rewrite H2, H1 in Heq.
  assert (Hin : lower ul (py ".d@e.ff") ∈ lowered_set ul [py "a@b.cc"; py ".d@e.ff"]).
  { apply elem_of_list_to_set. cbn [fmap list_fmap]. right. left. }
  rewrite <- Heq in Hin. apply elem_of_list_to_set in Hin.
  cbn [fmap list_fmap] in Hin.
  apply elem_of_cons in Hin as [Hin|Hin]; [vm_compute in Hin; discriminate|].
  apply elem_of_cons in Hin as [Hin|Hin]; [vm_compute in Hin; discriminate|].
  by apply elem_of_nil in Hin.
Qed.

(** The rerun theorem at work: a sentence with two addresses, joined by a
    space. *)
Lemma find_emails_rerun_witness :
  let text := py "Contact support@company.com or sales@company.com." in
  let run := find_emails ascii_isalnum_table ascii_lower_table in
  delimiter_ok ascii_isalnum_table (chr " ") = true /\
  Forall (word_ended ascii_isalnum_table) (run text) /\
  run (join [chr " "] (run text)) = run text /\
  lowered_set ascii_lower_table (run (join [chr " "] (run text)))
  = lowered_set ascii_lower_table (run text).
Proof.
  assert (Hdl : delimiter_ok ascii_isalnum_table (chr " ") = true) by reflexivity.
  assert (Hword : Forall (word_ended ascii_isalnum_table)
            (find_emails ascii_isalnum_table ascii_lower_table
               (py "Contact support@company.com or sales@company.com."))).
  { vm_compute. repeat constructor. }
  split; [exact Hdl|]. split; [exact Hword|].
  exact (find_emails_rerun ascii_isalnum_table ascii_lower_table (chr " ") _ Hdl Hword).
Defined.

(** A text without a match: no exception, an empty sequence, count 0, and
    the 18 characters of the text. *)
Lemma hunt_emails_total_witness :
  ~ occurrence ascii_isalnum_table (py "no address in here") /\
  run_hunt_emails ascii_isalnum_table ascii_lower_table (py "no address in here")
  = inr {| emails := []; count := 0; text_length := 18 |}.
Proof.
  assert (H : ~ occurrence ascii_isalnum_table (py "no address in here")).
  { apply findall_nil_iff. reflexivity. }
  split; [exact H|].
  exact (proj2 (proj2 (hunt_emails_total ascii_isalnum_table ascii_lower_table)) _ H).
Defined.

(** A text without ["@"]. *)
Lemma hunt_emails_no_at_witness :
  (chr "@" ∉ py "write to us at the usual address") /\
  hunt_emails ascii_isalnum_table ascii_lower_table (py "write to us at the usual address")
  = {| emails := []; count := 0; text_length := 32 |}.
Proof.
  assert (H : chr "@" ∉ py "write to us at the usual address").
  { apply (bool_decide_unpack _). vm_compute. exact I. }
  split; [exact H|].
  exact (hunt_emails_no_at ascii_isalnum_table ascii_lower_table _ H).
Defined.

(** Two different addresses in a sentence: both matches are returned. *)
Lemma find_emails_all_matches_witness :
  let text := py "Contact support@company.com or sales@company.com." in
  NoDup (lower ascii_lower_table <$> findall ascii_isalnum_table email_pattern text) /\
  find_emails ascii_isalnum_table ascii_lower_table text
  = findall ascii_isalnum_table email_pattern text.
Proof.
  assert (H : NoDup (lower ascii_lower_table <$> findall ascii_isalnum_table email_pattern
                       (py "Contact support@company.com or sales@company.com."))).
  { apply (bool_decide_unpack _). vm_compute. exact I. }
  split; [exact H|].
  exact (find_emails_all_matches ascii_isalnum_table ascii_lower_table _ H).
Defined.

(** Two addresses separated by a comma. *)
Lemma find_emails_delimited_list_witness :
  let es := [py "ann@example.org"; py "Bob.Lee@mail.example.com"] in
  delimiter_ok ascii_isalnum_table (chr ",") = true /\
  Forall (fun e => token_form tld_class e /\ word_ended ascii_isalnum_table e) es /\
  NoDup (lower ascii_lower_table <$> es) /\
  find_emails ascii_isalnum_table ascii_lower_table (join [chr ","] es) = es.
Proof.
  assert (Hdl : delimiter_ok ascii_isalnum_table (chr ",") = true) by reflexivity.
  assert (Hes : Forall (fun e => token_form tld_class e /\ word_ended ascii_isalnum_table e)
                  [py "ann@example.org"; py "Bob.Lee@mail.example.com"]).
  { constructor; [|constructor; [|constructor]]; (split; [|by vm_compute]).
    - exists (py "ann"), (py "example"), (py "org"). split; [reflexivity|].
      unfold email_parts. split_and!; vm_compute; first [lia | repeat constructor].
    - exists (py "Bob.Lee"), (py "mail.example"), (py "com"). split; [reflexivity|].
      unfold email_parts. split_and!; vm_compute; first [lia | repeat constructor]. }
  assert (Hnd : NoDup (lower ascii_lower_table <$>
                         [py "ann@example.org"; py "Bob.Lee@mail.example.com"])).
  { apply (bool_decide_unpack _). vm_compute. exact I. }
  split; [exact Hdl|]. split; [exact Hes|]. split; [exact Hnd|].
  exact (find_emails_delimited_list ascii_isalnum_table ascii_lower_table _ _ Hdl Hes Hnd).
Defined.

(** The demo key verifies as before a call of [generate_api_key]. *)
Lemma generate_keeps_others_witness :
  Some (py "demo_key_12345") <> Some (py "test_key_" ++ py "q0Zs-T4RkW1yB3vPzX7_cA") /\
  verify_api_key
    (generate_api_key API_KEYS (Some (py "My Test Application"))
       (py "q0Zs-T4RkW1yB3vPzX7_cA") (py "2026-02-16T09:30:00")).1
    (Some (py "demo_key_12345"))
  = verify_api_key API_KEYS (Some (py "demo_key_12345")).
Proof.
  assert (H : Some (py "demo_key_12345") <> Some (py "test_key_" ++ py "q0Zs-T4RkW1yB3vPzX7_cA"))
    by discriminate.
  split; [exact H|].
  exact (generate_keeps_others API_KEYS (Some (py "My Test Application"))
           (py "q0Zs-T4RkW1yB3vPzX7_cA") (py "2026-02-16T09:30:00") _ H).
Defined.

(** The demo key does not start with ["test_key_"]: its entry is the one of
    the import after two calls of [generate_api_key]. *)
Lemma generated_keeps_foreign_keys_witness :
  let reqs := [ {| request_name := None; random_part := py "q0Zs-T4RkW1yB3vPzX7_cA";
                   now := py "2026-02-16T09:30:00" |};
                {| request_name := Some (py "Batch"); random_part := py "demo_key_12345";
                   now := py "2026-02-16T09:31:00" |} ] in
  ~ (py "test_key_" `prefix_of` py "demo_key_12345") /\
  generated API_KEYS reqs !! py "demo_key_12345" = API_KEYS !! py "demo_key_12345".
Proof.
  assert (H : ~ (py "test_key_" `prefix_of` py "demo_key_12345")).
  { intros [k Hk]. discriminate Hk. }
  split; [exact H|].
  exact (generated_keeps_foreign_keys _ API_KEYS _ H).
Defined.

(** A generated key stays a key when the random source gives the same value
    a second time: the entry is replaced, the key is not lost. *)
Lemma generated_keeps_keys_witness :
  let first := {| request_name := Some (py "One"); random_part := py "q0Zs";
                  now := py "2026-02-16T09:30:00" |} in
  let again := {| request_name := Some (py "Two"); random_part := py "q0Zs";
                  now := py "2026-02-16T09:31:00" |} in
  is_Some (generated API_KEYS [first] !! py "test_key_q0Zs") /\
  is_Some (generated (generated API_KEYS [first]) [again] !! py "test_key_q0Zs").
Proof.
  assert (H : is_Some (generated API_KEYS
                         [ {| request_name := Some (py "One"); random_part := py "q0Zs";
                              now := py "2026-02-16T09:30:00" |} ] !! py "test_key_q0Zs")).
  { unfold generated, generate_api_key. cbn [foldl fst request_name random_part now].
    change (py "test_key_" ++ py "q0Zs") with (py "test_key_q0Zs").
    rewrite lookup_insert_eq. by eexists. }
  split; [exact H|].
  exact (generated_keeps_keys _ _ _ H).
Defined.

(** The variable ["alpha, beta"]: the entry of ["beta"] is the one of the
    second component, stripped. *)
Lemma load_env_keys_sound_witness :
  let utcnow := fun _ : nat => py "2026-02-16T09:30:00" in
  let info := {| name := py "Environment Key"; created_at := py "2026-02-16T09:30:00Z";
                 tier := py "premium" |} in
  load_env_keys ascii_isspace_table utcnow (Some (py "alpha, beta")) API_KEYS !! py "beta"
  = Some info /\
  (API_KEYS !! py "beta" = Some info \/
   (py "beta" <> [] /\
    (exists c : str, c ∈ MASTER_API_KEYS (Some (py "alpha, beta")) /\
                     py "beta" = strip ascii_isspace_table c) /\
    environment_entry info)).
Proof.
  assert (H : load_env_keys ascii_isspace_table (fun _ : nat => py "2026-02-16T09:30:00")
                (Some (py "alpha, beta")) API_KEYS !! py "beta"
              = Some {| name := py "Environment Key";
                        created_at := py "2026-02-16T09:30:00Z"; tier := py "premium" |})
    by (vm_compute; reflexivity).
  split; [exact H|].
  exact (load_env_keys_sound ascii_isspace_table _ _ _ _ _ H).
Defined.

(** The variable ["alpha, beta"]: the component [" beta"] is loaded as
    ["beta"]. *)
Lemma load_env_keys_complete_witness :
  let utcnow := fun _ : nat => py "2026-02-16T09:30:00" in
  chr "a" <> chr "," /\
  py " beta" ∈ MASTER_API_KEYS (Some (chr "a" :: py "lpha, beta")) /\
  strip ascii_isspace_table (py " beta") <> [] /\
  exists info : key_info,
    load_env_keys ascii_isspace_table utcnow (Some (chr "a" :: py "lpha, beta")) API_KEYS
      !! strip ascii_isspace_table (py " beta") = Some info /\
    environment_entry info.
Proof.
  assert (H0 : chr "a" <> chr ",") by discriminate.
  assert (H1 : py " beta" ∈ MASTER_API_KEYS (Some (chr "a" :: py "lpha, beta"))).
  { apply (bool_decide_unpack _). vm_compute. exact I. }
  assert (H2 : strip ascii_isspace_table (py " beta") <> []) by discriminate.
  split; [exact H0|]. split; [exact H1|]. split; [exact H2|].
  exact (load_env_keys_complete ascii_isspace_table _ _ _ API_KEYS _ H0 H1 H2).
Defined.
